(** * Cross-platform helpers for generator scripts ([platform_support.py])

    A shallow embedding of the six helpers of [platform_support.py] and the
    properties their specification states about them.

    - Python [str] values are [string]s; a character stands for the code
      point of the same number (U+0000 .. U+00FF), and [lower] is
      [str.lower] on that range.
    - What the module reads from its host ([os.name], [os.environ],
      [sys.executable], [shutil.which]) is gathered in the record [host].
    - The file system is a state threaded through a small state-and-exception
      monad; [Path.unlink] and the tree walk of [shutil.rmtree] are the
      host's, and are taken as section variables. *)

From Stdlib Require Import Ascii NArith.
From stdpp Require Import base option list strings gmap.

(** ** Python strings *)

(** [str.lower] on one character.  Below U+0100 the upper-case letters are
    A-Z (U+0041 .. U+005A) and U+00C0 .. U+00DE without the multiplication
    sign U+00D7; each has its lower-case form 32 places further.  Every other
    character of the range is left as it is. *)
Definition lower_char (c : ascii) : ascii :=
  let n := N_of_ascii c in
  if (((65 <=? n) && (n <=? 90)) ||
      ((192 <=? n) && (n <=? 222) && negb (n =? 215)))%N
  then ascii_of_N (n + 32)
  else c.

(** [s.lower()] *)
Fixpoint lower (s : string) : string :=
  match s with
  | EmptyString => EmptyString
  | String c s' => String (lower_char c) (lower s')
  end.

(** [s.endswith(suffix)]: the last [len(suffix)] characters of [s] are
    [suffix]; false when [s] is the shorter one. *)
Definition endswith (s suffix : string) : bool :=
  let n := String.length s in
  let k := String.length suffix in
  (k <=? n) && String.eqb (String.substring (n - k) k s) suffix.

(** Truth value of a string in a condition ([if s:]): the empty string is
    false, every other string is true. *)
Definition str_bool (s : string) : bool :=
  match s with
  | EmptyString => false
  | String _ _ => true
  end.

(** ** The host *)

Record host := Host {
  os_name : string;                   (* os.name *)
  environ : gmap string string;       (* os.environ *)
  sys_executable : option string;     (* sys.executable: a str or None *)
  which : string → option string      (* shutil.which: a path or None *)
}.

(** [IS_WINDOWS = os.name == "nt"] *)
Definition IS_WINDOWS (h : host) : bool := String.eqb (os_name h) "nt".

(** ** Name-suffixing helpers *)

Definition exe_name (h : host) (name : string) : string :=
  let suffix := if IS_WINDOWS h then ".exe" else "" in
  let lname := lower name in
  if endswith lname suffix then name
  else name +:+ suffix.

Definition shared_lib_name (h : host) (name : string) : string :=
  let suffix := if IS_WINDOWS h then ".dll" else ".so" in
  let lname := lower name in
  if endswith lname suffix then name
  else name +:+ suffix.

(** ** Exceptions and results *)

(** The exceptions the helpers meet, each with its message.  The first three
    are the subclasses of [OSError] the code names or the specification
    mentions; [OSError] stands for every other operating-system error and
    [OtherError] for an exception outside that family. *)
Inductive exception :=
  | FileNotFoundError (msg : string)
  | IsADirectoryError (msg : string)
  | PermissionError (msg : string)
  | OSError (msg : string)
  | OtherError (msg : string).

Global Instance exception_eq_dec : EqDecision exception.
Proof. solve_decision. Defined.

(** The outcome of a call: an exception raised, or a value returned. *)
Definition result (A : Type) : Type := exception + A.

(** ** Interpreter path *)

(** [sys.executable] is a string or [None]; both [None] and the empty string
    are false in [if sys.executable:]. *)
Definition python_cmd (h : host) : string :=
  let fallback := if IS_WINDOWS h then "python" else "python3" in
  match sys_executable h with
  | Some executable => if str_bool executable then executable else fallback
  | None => fallback
  end.

(** ** Tool resolution *)

(** The loop shared by [addchain_executable] and [find_size_tool]:
<<
    for candidate in candidates:
        found = shutil.which(candidate)
        if found:
            return ... found ...
>>
    [None] when the loop runs to its end. *)
Fixpoint first_found (h : host) (candidates : list string) : option string :=
  match candidates with
  | [] => None
  | candidate :: rest =>
      match which h candidate with
      | Some found => if str_bool found then Some found else first_found h rest
      | None => first_found h rest
      end
  end.

(** The candidate list [addchain_executable] builds before it searches. *)
Definition addchain_candidates (h : host) : list string :=
  let configured := default "addchain" (environ h !! "ADDCHAIN") in
  let candidates := [configured] in
  if IS_WINDOWS h && negb (endswith (lower configured) ".exe")
  then candidates ++ [configured +:+ ".exe"]
  else candidates.

Definition addchain_not_found : string :=
  "addchain executable not found. Build it from https://github.com/mmcloughlin/addchain " +:+
  "and ensure it (or the ADDCHAIN env var) is on your PATH.".

Definition addchain_executable (h : host) : result string :=
  match first_found h (addchain_candidates h) with
  | Some found => inr found
  | None => inl (FileNotFoundError addchain_not_found)
  end.

(** [find_size_tool] returns a one-element list or [None]. *)
Definition find_size_tool (h : host) : option (list string) :=
  match first_found h ["size"; "llvm-size"] with
  | Some found => Some [found]
  | None => None
  end.

(** ** File deletion *)

(** [pathlib.Path(path)] *)
Inductive PurePath := Path (path : string).

Section FileSystem.

(** The state of the host's file system. *)
Variable FS : Type.

(** A call that may change the file system and may raise.  What was
    changed before an exception stays changed. *)
Definition M (A : Type) : Type := FS → result A * FS.

Definition ret {A} (a : A) : M A := λ fs, (inr a, fs).

Definition raise {A} (e : exception) : M A := λ fs, (inl e, fs).

Definition bind {A B} (m : M A) (k : A → M B) : M B :=
  λ fs, match m fs with
        | (inr a, fs') => k a fs'
        | (inl e, fs') => (inl e, fs')
        end.

(** [try: m  except ...: handler]; a handler re-raises what it does not
    catch. *)
Definition try_except {A} (m : M A) (handler : exception → M A) : M A :=
  λ fs, match m fs with
        | (inr a, fs') => (inr a, fs')
        | (inl e, fs') => handler e fs'
        end.

(** [Path.unlink()] *)
Variable unlink : PurePath → M unit.

(** The walk of [shutil.rmtree]: it removes what it can under the path and
    hands every error it meets on the way to its error handler; here, the
    errors in the order met and the file system it leaves. *)
Variable rmtree_walk : PurePath → FS → list exception * FS.

(** [shutil.rmtree(path, ignore_errors)]: when [ignore_errors] is true the
    handler drops every error, otherwise it raises the first one. *)
Definition rmtree (path : PurePath) (ignore_errors : bool) : M unit :=
  λ fs, match rmtree_walk path fs with
        | ([], fs') => (inr (), fs')
        | (e :: _, fs') => if ignore_errors then (inr (), fs') else (inl e, fs')
        end.

Definition delete_file (path : string) : M unit :=
  let target := Path path in
  try_except (unlink target)
    (λ e, match e with
          | FileNotFoundError _ => ret ()
          | IsADirectoryError _ => rmtree target true
          | _ => raise e
          end).

Fixpoint delete_files (paths : list string) : M unit :=
  match paths with
  | [] => ret ()
  | path :: rest => bind (delete_file path) (λ _, delete_files rest)
  end.

End FileSystem.

Arguments ret {FS A} a.
Arguments raise {FS A} e.
Arguments bind {FS A B} m k.
Arguments try_except {FS A} m handler.
Arguments rmtree {FS} rmtree_walk path ignore_errors.
Arguments delete_file {FS} unlink rmtree_walk path.
Arguments delete_files {FS} unlink rmtree_walk paths.

(** ** Sample hosts

    Concrete hosts on which the definitions above can be run. *)
Module Sample.

(** A search path as a table from command names to resolved paths. *)
Definition which_in (table : list (string * string)) (cmd : string) : option string :=
  (list_to_map table : gmap string string) !! cmd.

Definition posix : host :=
  Host "posix" ∅ (Some "/usr/bin/python3")
    (which_in [("size", "/usr/bin/size"); ("llvm-size", "/usr/bin/llvm-size");
               ("addchain", "/home/dev/go/bin/addchain")]).

Definition windows : host :=
  Host "nt" {[ "ADDCHAIN" := "tools/addchain" ]} None
    (which_in [("llvm-size", "C:/llvm/bin/llvm-size.EXE");
               ("tools/addchain.exe", "tools/addchain.exe")]).

(** A host on which nothing resolves. *)
Definition bare : host := Host "posix" ∅ (Some "") (λ _, None).

(** A Windows-style host whose [ADDCHAIN] names a path that is not there,
    while the tool is on the search path under its usual name. *)
Definition overridden : host :=
  Host "nt" {[ "ADDCHAIN" := "vendor/addchain" ]} (Some "C:/Python/python.exe")
    (which_in [("addchain", "C:/go/bin/addchain.exe");
               ("addchain.exe", "C:/go/bin/addchain.exe")]).

(** A small file system: every path names a file, a file that may not be
    removed, or a directory. *)
Inductive entry := File | Locked | Dir.

Global Instance entry_eq_dec : EqDecision entry.
Proof. solve_decision. Defined.

Definition fs : Type := list (string * entry).

Fixpoint lookup_entry (p : string) (t : fs) : option entry :=
  match t with
  | [] => None
  | (q, e) :: t' => if String.eqb p q then Some e else lookup_entry p t'
  end.

Definition remove_entry (p : string) (t : fs) : fs :=
  filter (λ qe, qe.1 ≠ p) t.

Definition unlink (target : PurePath) : M fs unit :=
  let 'Path p := target in
  λ t, match lookup_entry p t with
       | None => (inl (FileNotFoundError p), t)
       | Some Dir => (inl (IsADirectoryError p), t)
       | Some Locked => (inl (PermissionError p), t)
       | Some File => (inr (), remove_entry p t)
       end.

(** [q] is [p] or lies below it. *)
Definition under (p q : string) : bool :=
  String.eqb p q || String.prefix (p +:+ "/") q.

Definition is_locked (e : entry) : bool :=
  match e with Locked => true | _ => false end.

(** The walk removes every entry under the path that may be removed; each
    locked one stays and is reported, and then so does the directory. *)
Definition rmtree_walk (target : PurePath) (t : fs) : list exception * fs :=
  let 'Path p := target in
  let locked := filter (λ qe, under p qe.1 && is_locked qe.2 = true) t in
  match locked with
  | [] => ([], filter (λ qe, under p qe.1 = false) t)
  | _ :: _ =>
      (((λ qe, PermissionError qe.1) <$> locked) ++ [OSError p],
       filter (λ qe, under p qe.1 = false ∨ is_locked qe.2 = true ∨ qe.1 = p) t)
  end.

Definition disk : fs :=
  [("build", Dir); ("build/a.o", File); ("build/b.o", File);
   ("out", Dir); ("out/keep.bin", Locked); ("out/tmp.bin", File);
   ("gen.c", File); ("vendor.lock", Locked)].

End Sample.

(** ** Vocabulary of the specification

    The predicates in which the properties below are stated. *)

(** A string ends with a suffix when it is some string followed by it. *)
Definition ends_with (s suffix : string) : Prop := ∃ p, s = p +:+ suffix.

(** A name ends with a suffix, letter case apart, when its tail lower-cases
    to the suffix. *)
Definition ends_with_nocase (name suffix : string) : Prop :=
  ∃ p t, name = p +:+ t ∧ lower t = suffix.

(** [s] has [t] somewhere inside. *)
Definition contains (s t : string) : Prop := ∃ a b, s = a +:+ t +:+ b.

(** [f] returns a name unchanged when its lower-cased form ends with
    [suffix], and with [suffix] appended otherwise. *)
Definition appends_unless_present (f : string → string) (suffix : string) : Prop :=
  ∀ name,
    (ends_with (lower name) suffix → f name = name) ∧
    (¬ ends_with (lower name) suffix → f name = name +:+ suffix).

(** A command resolves to [p] when [shutil.which] returns [p] and [p] counts
    as true, that is, when it is not the empty string. *)
Definition resolves (h : host) (cmd p : string) : Prop :=
  which h cmd = Some p ∧ p ≠ "".

Definition unresolved (h : host) (cmd : string) : Prop :=
  ∀ p, ¬ resolves h cmd p.

(** The two kinds of error [delete_file] catches. *)
Definition swallowed (e : exception) : Prop :=
  (∃ msg, e = FileNotFoundError msg) ∨ (∃ msg, e = IsADirectoryError msg).

(** Every path of the list is deleted, one after the other, without an
    error: the file system goes from [fs] to [fs']. *)
Inductive all_deleted {FS : Type} (unlink : PurePath → M FS unit)
    (rmtree_walk : PurePath → FS → list exception * FS) :
    list string → FS → FS → Prop :=
  | all_deleted_nil fs :
      all_deleted unlink rmtree_walk [] fs fs
  | all_deleted_cons path rest fs fs1 fs2 :
      delete_file unlink rmtree_walk path fs = (inr (), fs1) →
      all_deleted unlink rmtree_walk rest fs1 fs2 →
      all_deleted unlink rmtree_walk (path :: rest) fs fs2.

(** * Properties *)

(** ** Strings: append, [lower] and [endswith] *)

Lemma app_cons (c : ascii) (s t : string) : String c s +:+ t = String c (s +:+ t).
Proof. reflexivity. Qed.

Lemma app_nil_r (s : string) : s +:+ "" = s.
Proof. induction s as [|c s IH]; [done|]. by rewrite app_cons, IH. Qed.

Lemma length_app_str (s t : string) :
  String.length (s +:+ t) = String.length s + String.length t.
Proof. induction s as [|c s IH]; [done|]. rewrite app_cons. simpl. lia. Qed.

Lemma lower_app (s t : string) : lower (s +:+ t) = lower s +:+ lower t.
Proof. induction s as [|c s IH]; [done|]. rewrite app_cons. simpl. by rewrite IH. Qed.

(** What [lower] returns splits where its argument does. *)
Lemma lower_app_inv (s q r : string) :
  lower s = q +:+ r → ∃ p t, s = p +:+ t ∧ lower p = q ∧ lower t = r.
Proof.
  revert s. induction q as [|c q IH]; intros s H.
  - exists "", s. auto.
  - destruct s as [|d s]; [discriminate|].
    rewrite app_cons in H. simpl in H. injection H as Hc Hs.
    destruct (IH s Hs) as (p & t & -> & Hp & Ht).
    exists (String d p), t. rewrite app_cons. simpl. by rewrite Hc, Hp.
Qed.

Lemma substring_all (s : string) : String.substring 0 (String.length s) s = s.
Proof. induction s as [|c s IH]; simpl; congruence. Qed.

Lemma substring_app_tail (p s : string) :
  String.substring (String.length p) (String.length s) (p +:+ s) = s.
Proof.
  induction p as [|c p IH]; [apply substring_all|].
  rewrite app_cons. simpl. exact IH.
Qed.

Lemma substring_split (s : string) (i : nat) :
  i ≤ String.length s →
  String.substring 0 i s +:+ String.substring i (String.length s - i) s = s.
Proof.
  revert i. induction s as [|c s IH]; intros i Hi.
  - simpl in Hi. by replace i with 0 by lia.
  - destruct i as [|i].
    + change (String.substring 0 0 (String c s)) with "".
      rewrite Nat.sub_0_r. apply substring_all.
    + simpl in Hi. simpl. rewrite app_cons. f_equal. apply IH. lia.
Qed.

Lemma endswith_spec (s suffix : string) :
  endswith s suffix = true ↔ ends_with s suffix.
Proof.
  unfold endswith, ends_with. split.
  - intros [Hle Heq]%andb_true_iff.
    apply Nat.leb_le in Hle. apply String.eqb_eq in Heq.
    exists (String.substring 0 (String.length s - String.length suffix) s).
    pose proof (substring_split s (String.length s - String.length suffix)) as H.
    replace (String.length s - (String.length s - String.length suffix))
      with (String.length suffix) in H by lia.
    rewrite Heq in H. symmetry. apply H. lia.
  - intros [p ->]. rewrite length_app_str.
    apply andb_true_iff. split; [apply Nat.leb_le; lia|].
    replace (String.length p + String.length suffix - String.length suffix)
      with (String.length p) by lia.
    rewrite substring_app_tail. apply String.eqb_refl.
Qed.

Lemma endswith_false (s suffix : string) :
  endswith s suffix = false ↔ ¬ ends_with s suffix.
Proof.
  rewrite <- endswith_spec. destruct (endswith s suffix); naive_solver.
Qed.

Lemma endswith_nil (s : string) : endswith s "" = true.
Proof. apply endswith_spec. exists s. by rewrite app_nil_r. Qed.

Lemma endswith_app (p suffix : string) : endswith (p +:+ suffix) suffix = true.
Proof. apply endswith_spec. by exists p. Qed.

(** The test the code makes, [name.lower().endswith(suffix)], is the
    comparison of the name's tail with the suffix, letter case apart. *)
Lemma endswith_lower_nocase (name suffix : string) :
  endswith (lower name) suffix = true ↔ ends_with_nocase name suffix.
Proof.
  rewrite endswith_spec. unfold ends_with, ends_with_nocase. split.
  - intros [q Hq]. destruct (lower_app_inv _ _ _ Hq) as (p & t & ? & ? & ?). eauto.
  - intros (p & t & -> & <-). exists (lower p). apply lower_app.
Qed.

(** ** Name-suffixing helpers *)

Lemma appends_unless_present_intro (f : string → string) (suffix : string) :
  (∀ name, f name = if endswith (lower name) suffix then name else name +:+ suffix) →
  appends_unless_present f suffix.
Proof.
  intros Hf name. rewrite Hf. split.
  - intros H%endswith_spec. by rewrite H.
  - intros H%endswith_false. by rewrite H.
Qed.

(** Appending a lower-case suffix makes the test for it succeed. *)
Lemma endswith_lower_app (name suffix : string) :
  lower suffix = suffix → endswith (lower (name +:+ suffix)) suffix = true.
Proof. intros Hs. rewrite lower_app, Hs. apply endswith_app. Qed.

Lemma append_unless_present_idem (suffix name : string) :
  lower suffix = suffix →
  let f := λ n, if endswith (lower n) suffix then n else n +:+ suffix in
  f (f name) = f name.
Proof.
  intros Hs f. unfold f.
  destruct (endswith (lower name) suffix) eqn:E.
  - by rewrite E.
  - by rewrite endswith_lower_app.
Qed.

(** C3: [exe_name] and [shared_lib_name] take the suffix of the platform
    (".exe" and ".dll" on a Windows-style host, the empty string and ".so"
    on a POSIX-style one), return a name unchanged when its lower-cased form
    already ends with that suffix, and otherwise return it with the suffix
    appended. *)
Theorem exe_name_shared_lib_name_suffix (h : host) :
  if IS_WINDOWS h
  then appends_unless_present (exe_name h) ".exe" ∧
       appends_unless_present (shared_lib_name h) ".dll"
  else appends_unless_present (exe_name h) "" ∧
       appends_unless_present (shared_lib_name h) ".so".
Proof.
  unfold exe_name, shared_lib_name.
  destruct (IS_WINDOWS h); split; by apply appends_unless_present_intro.
Qed.

(** C4: on a POSIX-style host [exe_name] returns every string, the empty one
    included, as it is: the suffix is empty, and every string ends with the
    empty string. *)
Theorem exe_name_posix_unchanged (h : host) (x : string) :
  IS_WINDOWS h = false → exe_name h x = x.
Proof.
  intros Hw. unfold exe_name. rewrite Hw. by rewrite endswith_nil.
Qed.

Lemma exe_name_posix_unchanged_witness :
  IS_WINDOWS Sample.posix = false ∧
  exe_name Sample.posix "" = "" ∧ exe_name Sample.posix "addchain" = "addchain".
Proof.
  split; [reflexivity|].
  split; apply (exe_name_posix_unchanged Sample.posix); reflexivity.
Defined.

(** C5: [exe_name] and [shared_lib_name] are idempotent on both kinds of
    host: applied to their own result they return it unchanged. *)
Theorem exe_name_shared_lib_name_idempotent (h : host) (x : string) :
  exe_name h (exe_name h x) = exe_name h x ∧
  shared_lib_name h (shared_lib_name h x) = shared_lib_name h x.
Proof.
  unfold exe_name, shared_lib_name.
  destruct (IS_WINDOWS h); split; by apply append_unless_present_idem.
Qed.

(** C10: the helpers never strip, replace or re-case a part of their input.
    The result is the input itself or the input followed by the platform
    suffix, which is in lower case; so the input is a prefix of the result.
    On a Windows-style host "libfoo.so" becomes "libfoo.so.dll": the suffix
    of the other platform stays and the Windows one comes after it. *)
Theorem exe_name_shared_lib_name_only_append (h : host) (name : string) :
  let exe_suffix := if IS_WINDOWS h then ".exe" else "" in
  let lib_suffix := if IS_WINDOWS h then ".dll" else ".so" in
  (exe_name h name = name ∨ exe_name h name = name +:+ exe_suffix) ∧
  (shared_lib_name h name = name ∨ shared_lib_name h name = name +:+ lib_suffix) ∧
  lower exe_suffix = exe_suffix ∧ lower lib_suffix = lib_suffix ∧
  (∃ t, exe_name h name = name +:+ t) ∧
  (∃ t, shared_lib_name h name = name +:+ t) ∧
  (IS_WINDOWS h = true → shared_lib_name h "libfoo.so" = "libfoo.so.dll").
Proof.
  unfold exe_name, shared_lib_name. simpl.
  split_and!.
  - destruct (endswith _ _); auto.
  - destruct (endswith _ _); auto.
  - by destruct (IS_WINDOWS h).
  - by destruct (IS_WINDOWS h).
  - destruct (endswith _ _); [exists ""; by rewrite app_nil_r | eauto].
  - destruct (endswith _ _); [exists ""; by rewrite app_nil_r | eauto].
  - by intros ->.
Qed.

(** ** Interpreter path *)

(** C8: [python_cmd] returns the running interpreter's own path when it is
    known and not empty, and otherwise "python" on a Windows-style host and
    "python3" on a POSIX-style one.  The result is never the empty string;
    being a plain string, it is never an exception. *)
Theorem python_cmd_own_path_or_fallback (h : host) :
  (∀ executable, sys_executable h = Some executable → executable ≠ "" →
     python_cmd h = executable) ∧
  (sys_executable h = None ∨ sys_executable h = Some "" →
     python_cmd h = if IS_WINDOWS h then "python" else "python3") ∧
  python_cmd h ≠ "".
Proof.
  unfold python_cmd. split_and!.
  - intros executable -> Hne. by destruct executable.
  - by intros [-> | ->].
  - destruct (sys_executable h) as [[|c s]|]; simpl; by destruct (IS_WINDOWS h).
Qed.

(** ** Tool resolution *)

Lemma resolves_inj (h : host) (cmd p q : string) :
  resolves h cmd p → resolves h cmd q → p = q.
Proof. intros [Hp _] [Hq _]. congruence. Qed.

Lemma resolves_or_unresolved (h : host) (cmd : string) :
  (∃ p, resolves h cmd p) ∨ unresolved h cmd.
Proof.
  unfold unresolved, resolves.
  destruct (which h cmd) as [[|c s]|]; [right|left|right].
  - intros p [[= <-] Hne]. done.
  - by exists (String c s).
  - by intros p [? _].
Qed.

Lemma first_found_cons_resolves (h : host) (cmd p : string) (rest : list string) :
  resolves h cmd p → first_found h (cmd :: rest) = Some p.
Proof. intros [Hw Hne]. simpl. rewrite Hw. by destruct p. Qed.

Lemma first_found_cons_unresolved (h : host) (cmd : string) (rest : list string) :
  unresolved h cmd → first_found h (cmd :: rest) = first_found h rest.
Proof.
  unfold unresolved, resolves. intros Hu. simpl.
  destruct (which h cmd) as [[|c s]|]; [done| |done].
  by destruct (Hu (String c s)).
Qed.

(** The loop returns what the first resolving candidate resolves to. *)
Lemma first_found_Some (h : host) (candidates : list string) (p : string) :
  first_found h candidates = Some p ↔
  ∃ pre cmd post,
    candidates = pre ++ cmd :: post ∧ Forall (unresolved h) pre ∧ resolves h cmd p.
Proof.
  induction candidates as [|c rest IH].
  - split; [done|]. intros (pre & cmd & post & H & _). by destruct pre.
  - destruct (resolves_or_unresolved h c) as [[q Hq]|Hu].
    + rewrite (first_found_cons_resolves _ _ _ _ Hq). split.
      * intros [= <-]. by exists [], c, rest.
      * intros ([|c' pre] & cmd & post & [= <- Hrest] & Hpre & Hres).
        -- f_equal. eapply resolves_inj; eauto.
        -- apply Forall_cons in Hpre as [Hu _]. by destruct (Hu q).
    + rewrite (first_found_cons_unresolved _ _ _ Hu), IH. split.
      * intros (pre & cmd & post & -> & Hpre & Hres).
        exists (c :: pre), cmd, post. split_and!; [done| by constructor |done].
      * intros ([|c' pre] & cmd & post & [= <- Hrest] & Hpre & Hres).
        -- by destruct (Hu p).
        -- apply Forall_cons in Hpre as [_ Hpre]. by exists pre, cmd, post.
Qed.

(** The loop runs to its end exactly when no candidate resolves. *)
Lemma first_found_None (h : host) (candidates : list string) :
  first_found h candidates = None ↔ Forall (unresolved h) candidates.
Proof.
  induction candidates as [|c rest IH]; [by split|].
  rewrite Forall_cons.
  destruct (resolves_or_unresolved h c) as [[q Hq]|Hu].
  - rewrite (first_found_cons_resolves _ _ _ _ Hq). split; [done|].
    intros [Hu _]. by destruct (Hu q).
  - rewrite (first_found_cons_unresolved _ _ _ Hu), IH. tauto.
Qed.

(** C1: [addchain_executable] takes the value of [ADDCHAIN], or "addchain"
    when the variable is not set; its candidates are that value and, on a
    Windows-style host only and only when the value does not already end in
    ".exe" (letter case apart), the value with ".exe" appended; it returns
    what the first candidate that resolves, in that order, resolves to. *)
Theorem addchain_executable_first_candidate (h : host) :
  let configured := default "addchain" (environ h !! "ADDCHAIN") in
  (IS_WINDOWS h = true → ¬ ends_with_nocase configured ".exe" →
     addchain_candidates h = [configured; configured +:+ ".exe"]) ∧
  (IS_WINDOWS h = false ∨ ends_with_nocase configured ".exe" →
     addchain_candidates h = [configured]) ∧
  (∀ p, addchain_executable h = inr p ↔
     ∃ pre cmd post,
       addchain_candidates h = pre ++ cmd :: post ∧
       Forall (unresolved h) pre ∧ resolves h cmd p).
Proof.
  intros configured. split_and!.
  - intros Hw Hne. unfold addchain_candidates. fold configured. rewrite Hw.
    destruct (endswith (lower configured) ".exe") eqn:E; [|done].
    by apply endswith_lower_nocase in E.
  - intros H. unfold addchain_candidates. fold configured.
    destruct H as [-> | H%endswith_lower_nocase]; [done|].
    rewrite H. by destruct (IS_WINDOWS h).
  - intros p. rewrite <- first_found_Some. unfold addchain_executable.
    destruct (first_found h (addchain_candidates h)); split; intros [=]; by subst.
Qed.

(** C6: [addchain_executable] raises exactly when no candidate resolves.
    What it raises is [FileNotFoundError], and the message names the upstream
    project and the [ADDCHAIN] environment variable. *)
Theorem addchain_executable_not_found (h : host) :
  (∀ e, addchain_executable h = inl e ↔
     e = FileNotFoundError addchain_not_found ∧
     Forall (unresolved h) (addchain_candidates h)) ∧
  contains addchain_not_found "https://github.com/mmcloughlin/addchain" ∧
  contains addchain_not_found "ADDCHAIN env var".
Proof.
  split_and!.
  - intros e. rewrite <- first_found_None. unfold addchain_executable.
    destruct (first_found h (addchain_candidates h)); split.
    + intros [=].
    + intros [_ [=]].
    + by intros [= <-].
    + by intros [-> _].
  - exists "addchain executable not found. Build it from ",
      " and ensure it (or the ADDCHAIN env var) is on your PATH.".
    reflexivity.
  - exists "addchain executable not found. Build it from https://github.com/mmcloughlin/addchain and ensure it (or the ",
      ") is on your PATH.".
    reflexivity.
Qed.

(** C7: [find_size_tool] tries "size" and then "llvm-size".  It returns what
    the first of them that resolves resolves to, as a list of one element, so
    "size" wins when both resolve; it returns [None], and raises nothing,
    when neither does. *)
Theorem find_size_tool_priority (h : host) :
  (∀ p, resolves h "size" p → find_size_tool h = Some [p]) ∧
  (∀ q, unresolved h "size" → resolves h "llvm-size" q →
     find_size_tool h = Some [q]) ∧
  (find_size_tool h = None ↔ unresolved h "size" ∧ unresolved h "llvm-size").
Proof.
  unfold find_size_tool. split_and!.
  - intros p Hp. by rewrite (first_found_cons_resolves _ _ _ _ Hp).
  - intros q Hu Hq.
    by rewrite (first_found_cons_unresolved _ _ _ Hu),
      (first_found_cons_resolves _ _ _ _ Hq).
  - pose proof (first_found_None h ["size"; "llvm-size"]) as H.
    rewrite !Forall_cons in H.
    destruct (first_found h ["size"; "llvm-size"]) as [found|]; split.
    + intros [=].
    + intros [Hs Hl].
      assert (Some found = None) as [=].
      apply H. split_and!; [done..|constructor].
    + intros _. destruct (proj1 H eq_refl) as (Hs & Hl & _). done.
    + done.
Qed.

(** ** File deletion *)

Section FileDeletion.

Context {FS : Type}.
Variable unlink : PurePath → M FS unit.
Variable rmtree_walk : PurePath → FS → list exception * FS.

(** With [ignore_errors] set, [rmtree] returns whatever the walk met. *)
Lemma rmtree_ignore_errors (path : PurePath) (fs : FS) :
  rmtree rmtree_walk path true fs = (inr (), (rmtree_walk path fs).2).
Proof. unfold rmtree. by destruct (rmtree_walk path fs) as [[|e errors] fs']. Qed.

(** Without it, the first error the walk meets is raised. *)
Lemma rmtree_raises_first (path : PurePath) (fs fs' : FS)
    (e : exception) (errors : list exception) :
  rmtree_walk path fs = (e :: errors, fs') →
  rmtree rmtree_walk path false fs = (inl e, fs').
Proof. unfold rmtree. by intros ->. Qed.

(** [delete_file] by the outcome of [unlink]. *)
Lemma delete_file_unfold (path : string) (fs : FS) :
  delete_file unlink rmtree_walk path fs =
    match unlink (Path path) fs with
    | (inr u, fs') => (inr u, fs')
    | (inl (FileNotFoundError _), fs') => (inr (), fs')
    | (inl (IsADirectoryError _), fs') => (inr (), (rmtree_walk (Path path) fs').2)
    | (inl e, fs') => (inl e, fs')
    end.
Proof.
  unfold delete_file, try_except.
  destruct (unlink (Path path) fs) as [[[]|u] fs']; try done.
  apply rmtree_ignore_errors.
Qed.

Lemma delete_files_cons (path : string) (rest : list string) (fs : FS) :
  delete_files unlink rmtree_walk (path :: rest) fs =
    match delete_file unlink rmtree_walk path fs with
    | (inr _, fs1) => delete_files unlink rmtree_walk rest fs1
    | (inl e, fs1) => (inl e, fs1)
    end.
Proof. reflexivity. Qed.

Local Abbreviation delete_file := (delete_file unlink rmtree_walk).
Local Abbreviation delete_files := (delete_files unlink rmtree_walk).
Local Abbreviation all_deleted := (all_deleted unlink rmtree_walk).

(** C2: [delete_file] raises exactly when [unlink] fails with an error that
    is neither "file not found" nor "is a directory", and then it raises
    that very error.  A path that is not there is a success.  A directory
    is handed to the recursive removal, whose errors are all dropped.  *)
Theorem delete_file_raises_iff (path : string) (fs : FS) :
  (∀ e fs', delete_file path fs = (inl e, fs') ↔
     unlink (Path path) fs = (inl e, fs') ∧ ¬ swallowed e) ∧
  (∀ msg fs', unlink (Path path) fs = (inl (FileNotFoundError msg), fs') →
     delete_file path fs = (inr (), fs')) ∧
  (∀ msg fs', unlink (Path path) fs = (inl (IsADirectoryError msg), fs') →
     delete_file path fs = (inr (), (rmtree_walk (Path path) fs').2)) ∧
  (∀ fs', unlink (Path path) fs = (inr (), fs') →
     delete_file path fs = (inr (), fs')).
Proof.
  rewrite delete_file_unfold. unfold swallowed. split_and!.
  - intros e fs'.
    destruct (unlink (Path path) fs) as [[[msg|msg|msg|msg|msg]|u] fs1].
    + split; [intros [=]|]. intros [[= <- <-] Hs]. destruct Hs. left. by exists msg.
    + split; [intros [=]|]. intros [[= <- <-] Hs]. destruct Hs. right. by exists msg.
    + split; [|by intros [? _]].
      intros [= <- <-]. split; [done|]. by intros [[? [=]]|[? [=]]].
    + split; [|by intros [? _]].
      intros [= <- <-]. split; [done|]. by intros [[? [=]]|[? [=]]].
    + split; [|by intros [? _]].
      intros [= <- <-]. split; [done|]. by intros [[? [=]]|[? [=]]].
    + split; [intros [=]|]. by intros [[=] _].
  - by intros msg fs' ->.
  - by intros msg fs' ->.
  - by intros fs' ->.
Qed.

Lemma delete_files_ok (paths : list string) (fs fs' : FS) :
  delete_files paths fs = (inr (), fs') ↔ all_deleted paths fs fs'.
Proof.
  revert fs. induction paths as [|path rest IH]; intros fs.
  - split.
    + intros [= <-]. constructor.
    + by inversion 1.
  - rewrite delete_files_cons.
    destruct (delete_file path fs) as [[e|[]] fs1] eqn:E.
    + split; [done|]. inversion 1; congruence.
    + rewrite IH. split.
      * intros H. by econstructor.
      * inversion 1; congruence.
Qed.

Lemma delete_files_raises (paths : list string) (fs fs' : FS) (e : exception) :
  delete_files paths fs = (inl e, fs') ↔
  ∃ pre path post fs1,
    paths = pre ++ path :: post ∧ all_deleted pre fs fs1 ∧
    delete_file path fs1 = (inl e, fs').
Proof.
  revert fs. induction paths as [|path0 rest IH]; intros fs.
  - split; [done|]. intros (pre & ? & ? & ? & H & _). by destruct pre.
  - rewrite delete_files_cons.
    destruct (delete_file path0 fs) as [[e0|[]] fs1] eqn:E.
    + split.
      * intros [= <- <-]. exists [], path0, rest, fs.
        split_and!; [done|constructor|done].
      * intros ([|path1 pre] & path & post & fs2 & [= -> ->] & Hall & Hd).
        -- inversion Hall; congruence.
        -- inversion Hall; congruence.
    + rewrite IH. split.
      * intros (pre & path & post & fs2 & -> & Hall & Hd).
        exists (path0 :: pre), path, post, fs2.
        split_and!; [done|by econstructor|done].
      * intros ([|path1 pre] & path & post & fs2 & [= -> ->] & Hall & Hd).
        -- inversion Hall; congruence.
        -- inversion Hall; subst. exists pre, path, post, fs2.
           split_and!; [done|congruence|done].
Qed.

(** C9: [delete_files] applies [delete_file] to its paths in the order
    given, each on the file system the one before left.  It returns when
    all of them have returned.  The first error a [delete_file] raises is
    the error of the whole call: the paths before it have been worked
    through, the ones after it are not looked at, and nothing is collected
    from them. *)
Theorem delete_files_stops_at_first_error (paths : list string) (fs : FS) :
  (∀ fs', delete_files paths fs = (inr (), fs') ↔ all_deleted paths fs fs') ∧
  (∀ e fs', delete_files paths fs = (inl e, fs') ↔
     ∃ pre path post fs1,
       paths = pre ++ path :: post ∧ all_deleted pre fs fs1 ∧
       delete_file path fs1 = (inl e, fs')).
Proof.
  split.
  - intros fs'. apply delete_files_ok.
  - intros e fs'. apply delete_files_raises.
Qed.

End FileDeletion.

(** ** Runs on the sample hosts *)

Example lower_char_range :
  lower "Tools/AddChain.EXE" = "tools/addchain.exe" ∧
  lower_char "192"%char = "224"%char ∧ lower_char "215"%char = "215"%char ∧
  lower_char "222"%char = "254"%char ∧ lower_char "223"%char = "223"%char.
Proof. repeat split. Qed.

Example exe_name_runs :
  exe_name Sample.windows "addchain" = "addchain.exe" ∧
  exe_name Sample.windows "ADDCHAIN.EXE" = "ADDCHAIN.EXE" ∧
  exe_name Sample.windows "" = ".exe" ∧
  exe_name Sample.posix "addchain.exe" = "addchain.exe".
Proof. repeat split. Qed.

Example shared_lib_name_runs :
  shared_lib_name Sample.windows "modarith" = "modarith.dll" ∧
  shared_lib_name Sample.windows "ModArith.DLL" = "ModArith.DLL" ∧
  shared_lib_name Sample.posix "libmodarith.SO" = "libmodarith.SO" ∧
  shared_lib_name Sample.posix "so" = "so.so".
Proof. repeat split. Qed.

Example python_cmd_runs :
  python_cmd Sample.posix = "/usr/bin/python3" ∧
  python_cmd Sample.windows = "python" ∧
  python_cmd Sample.bare = "python3".
Proof. repeat split. Qed.

Example addchain_executable_runs :
  addchain_candidates Sample.posix = ["addchain"] ∧
  addchain_executable Sample.posix = inr "/home/dev/go/bin/addchain" ∧
  addchain_candidates Sample.windows = ["tools/addchain"; "tools/addchain.exe"] ∧
  addchain_executable Sample.windows = inr "tools/addchain.exe" ∧
  addchain_executable Sample.bare = inl (FileNotFoundError addchain_not_found).
Proof. repeat split; by vm_compute. Qed.

Example find_size_tool_runs :
  find_size_tool Sample.posix = Some ["/usr/bin/size"] ∧
  find_size_tool Sample.windows = Some ["C:/llvm/bin/llvm-size.EXE"] ∧
  find_size_tool Sample.bare = None.
Proof. repeat split; by vm_compute. Qed.

(** A directory with a locked file in it: the walk meets errors, and
    [delete_file] returns all the same. *)
Example delete_file_runs :
  (Sample.rmtree_walk (Path "out") Sample.disk).1 =
    [PermissionError "out/keep.bin"; OSError "out"] ∧
  delete_file Sample.unlink Sample.rmtree_walk "out" Sample.disk =
    (inr (),
     [("build", Sample.Dir); ("build/a.o", Sample.File); ("build/b.o", Sample.File);
      ("out", Sample.Dir); ("out/keep.bin", Sample.Locked);
      ("gen.c", Sample.File); ("vendor.lock", Sample.Locked)]) ∧
  delete_file Sample.unlink Sample.rmtree_walk "missing" Sample.disk =
    (inr (), Sample.disk) ∧
  delete_file Sample.unlink Sample.rmtree_walk "vendor.lock" Sample.disk =
    (inl (PermissionError "vendor.lock"), Sample.disk).
Proof. repeat split; by vm_compute. Qed.

(** The second path raises: the first is gone, the third is still there. *)
Example delete_files_runs :
  delete_files Sample.unlink Sample.rmtree_walk
    ["gen.c"; "vendor.lock"; "build"] Sample.disk =
    (inl (PermissionError "vendor.lock"),
     [("build", Sample.Dir); ("build/a.o", Sample.File); ("build/b.o", Sample.File);
      ("out", Sample.Dir); ("out/keep.bin", Sample.Locked); ("out/tmp.bin", Sample.File);
      ("vendor.lock", Sample.Locked)]) ∧
  delete_files Sample.unlink Sample.rmtree_walk
    ["gen.c"; "missing"; "build"; "out"] Sample.disk =
    (inr (),
     [("out", Sample.Dir); ("out/keep.bin", Sample.Locked);
      ("vendor.lock", Sample.Locked)]).
Proof. repeat split; by vm_compute. Qed.

(** * Further properties *)

(** ** Strings *)

Lemma lower_length (s : string) : String.length (lower s) = String.length s.
Proof. induction s as [|c s IH]; simpl; congruence. Qed.

Lemma app_neq_self (name suffix : string) : suffix ≠ "" → name +:+ suffix ≠ name.
Proof.
  intros Hne H. apply (f_equal String.length) in H.
  rewrite length_app_str in H. destruct suffix; [done|]. simpl in H. lia.
Qed.

Lemma app_eq_nil_str (s t : string) : s +:+ t = "" → s = "" ∧ t = "".
Proof. destruct s; [done|]. by rewrite app_cons. Qed.

(** A string shorter than the suffix does not end with it. *)
Lemma endswith_short (s suffix : string) :
  String.length s < String.length suffix → endswith s suffix = false.
Proof.
  intros Hlt. unfold endswith.
  by replace (String.length suffix <=? String.length s) with false
    by (symmetry; apply Nat.leb_gt; lia).
Qed.

(** ** Name-suffixing helpers *)

Section AppendUnlessPresent.

Variable suffix : string.

(** The body the two helpers share, for a given suffix. *)
Let f (name : string) : string :=
  if endswith (lower name) suffix then name else name +:+ suffix.

Lemma append_unless_present_unchanged_iff (name : string) :
  suffix ≠ "" → f name = name ↔ ends_with_nocase name suffix.
Proof.
  intros Hne. rewrite <- endswith_lower_nocase. unfold f.
  destruct (endswith (lower name) suffix); [done|].
  split; [|done]. intros H. by apply app_neq_self in H.
Qed.

Lemma append_unless_present_has_suffix (name : string) :
  lower suffix = suffix → ends_with_nocase (f name) suffix.
Proof.
  intros Hs. unfold f. destruct (endswith (lower name) suffix) eqn:E.
  - by apply endswith_lower_nocase.
  - by exists name, suffix.
Qed.

Lemma append_unless_present_nonempty (name : string) :
  suffix ≠ "" → f name ≠ "".
Proof.
  intros Hne. unfold f. destruct (endswith (lower name) suffix) eqn:E.
  - intros ->. simpl in E. rewrite endswith_short in E; [done|].
    destruct suffix; [done|]. simpl. lia.
  - intros [_ H]%app_eq_nil_str. done.
Qed.

Lemma append_unless_present_short (name : string) :
  String.length name < String.length suffix → f name = name +:+ suffix.
Proof.
  intros Hlt. unfold f. rewrite endswith_short; [done|]. by rewrite lower_length.
Qed.

End AppendUnlessPresent.

Lemma exe_name_unchanged_iff (h : host) (name : string) :
  exe_name h name = name ↔ IS_WINDOWS h = false ∨ ends_with_nocase name ".exe".
Proof.
  unfold exe_name. destruct (IS_WINDOWS h).
  - rewrite append_unless_present_unchanged_iff by done.
    split; [by right | by intros [[=]|?]].
  - rewrite endswith_nil. split; [by left | done].
Qed.

Lemma shared_lib_name_unchanged_iff (h : host) (name : string) :
  shared_lib_name h name = name ↔
  ends_with_nocase name (if IS_WINDOWS h then ".dll" else ".so").
Proof.
  unfold shared_lib_name.
  destruct (IS_WINDOWS h); by apply append_unless_present_unchanged_iff.
Qed.

(** X1: a helper returns its input unchanged exactly when the input already
    ends, letter case apart, with the platform suffix; [exe_name] on a
    POSIX-style host, where the suffix is empty, always does. *)
Theorem exe_name_shared_lib_name_unchanged_iff (h : host) (name : string) :
  (exe_name h name = name ↔
     IS_WINDOWS h = false ∨ ends_with_nocase name ".exe") ∧
  (shared_lib_name h name = name ↔
     ends_with_nocase name (if IS_WINDOWS h then ".dll" else ".so")).
Proof.
  split; [apply exe_name_unchanged_iff | apply shared_lib_name_unchanged_iff].
Qed.

(** X2: whatever the input, the result of a helper ends, letter case apart,
    with the platform suffix. *)
Theorem exe_name_shared_lib_name_has_suffix (h : host) (name : string) :
  ends_with_nocase (exe_name h name) (if IS_WINDOWS h then ".exe" else "") ∧
  ends_with_nocase (shared_lib_name h name) (if IS_WINDOWS h then ".dll" else ".so").
Proof.
  unfold exe_name, shared_lib_name.
  destruct (IS_WINDOWS h); split; by apply append_unless_present_has_suffix.
Qed.

(** X3: [shared_lib_name] never returns the empty string, and [exe_name]
    returns it only for the empty name on a POSIX-style host. *)
Theorem exe_name_shared_lib_name_empty (h : host) (name : string) :
  (exe_name h name = "" ↔ IS_WINDOWS h = false ∧ name = "") ∧
  shared_lib_name h name ≠ "".
Proof.
  unfold exe_name, shared_lib_name. destruct (IS_WINDOWS h); split.
  - split; [|by intros [[=] _]].
    intros H. by apply append_unless_present_nonempty in H.
  - by apply append_unless_present_nonempty.
  - rewrite endswith_nil. split; [done | by intros [_ ?]].
  - by apply append_unless_present_nonempty.
Qed.

(** X4: a name shorter than the platform suffix always has the suffix
    appended, also when the name is the suffix without its dot. *)
Theorem exe_name_shared_lib_name_short (h : host) (name : string) :
  let exe_suffix := if IS_WINDOWS h then ".exe" else "" in
  let lib_suffix := if IS_WINDOWS h then ".dll" else ".so" in
  (String.length name < String.length exe_suffix →
     exe_name h name = name +:+ exe_suffix) ∧
  (String.length name < String.length lib_suffix →
     shared_lib_name h name = name +:+ lib_suffix).
Proof.
  unfold exe_name, shared_lib_name.
  destruct (IS_WINDOWS h); split; apply append_unless_present_short.
Qed.



(** ** Tool resolution *)

Lemma which_None_unresolved (h : host) (cmd : string) :
  which h cmd = None → unresolved h cmd.
Proof. intros Hw p [Hp _]. congruence. Qed.

Lemma first_found_elem (h : host) (candidates : list string) (p : string) :
  first_found h candidates = Some p →
  p ≠ "" ∧ ∃ cmd, cmd ∈ candidates ∧ which h cmd = Some p.
Proof.
  intros (pre & cmd & post & -> & _ & Hw & Hne)%first_found_Some.
  split; [done|]. exists cmd. split; [|done].
  apply elem_of_app. right. apply elem_of_cons. by left.
Qed.

(** X6: the candidates of [addchain_executable] are the configured value
    and what [exe_name] makes of it, the second left out when it is the
    first again; so no candidate is tried twice. *)
Theorem addchain_candidates_exe_name (h : host) :
  let configured := default "addchain" (environ h !! "ADDCHAIN") in
  addchain_candidates h =
    (if decide (exe_name h configured = configured)
     then [configured]
     else [configured; exe_name h configured]) ∧
  NoDup (addchain_candidates h).
Proof.
  intros configured. unfold addchain_candidates, exe_name. fold configured.
  destruct (IS_WINDOWS h); simpl.
  - destruct (endswith (lower configured) ".exe"); simpl.
    + rewrite decide_True by done. split; [done|]. apply NoDup_singleton.
    + assert (configured +:+ ".exe" ≠ configured) as Hne by by apply app_neq_self.
      rewrite decide_False by done. split; [done|].
      apply NoDup_cons. split; [|apply NoDup_singleton].
      rewrite list_elem_of_singleton. congruence.
  - rewrite endswith_nil, decide_True by done. split; [done|]. apply NoDup_singleton.
Qed.

(** X7: once [ADDCHAIN] is set, the usual name is never fallen back on: a
    path returned is what the value, or the value with ".exe", resolves to,
    and when neither resolves the call raises, whatever else is on the search
    path. *)
Theorem addchain_executable_override (h : host) (value : string) :
  environ h !! "ADDCHAIN" = Some value →
  (∀ p, addchain_executable h = inr p →
     resolves h value p ∨ resolves h (value +:+ ".exe") p) ∧
  (unresolved h value → unresolved h (value +:+ ".exe") →
     addchain_executable h = inl (FileNotFoundError addchain_not_found)).
Proof.
  intros Henv.
  assert (∀ cmd, cmd ∈ addchain_candidates h → cmd = value ∨ cmd = value +:+ ".exe")
    as Hcand.
  { intros cmd. unfold addchain_candidates. rewrite Henv. simpl.
    destruct (_ && _); simpl; rewrite ?elem_of_cons, ?elem_of_nil; tauto. }
  unfold addchain_executable. split.
  - intros p Hp.
    destruct (first_found h (addchain_candidates h)) as [found|] eqn:E; [|done].
    injection Hp as ->.
    apply first_found_elem in E as (Hne & cmd & Hin & Hw).
    destruct (Hcand cmd Hin) as [-> | ->]; [by left | by right].
  - intros Hv Hexe.
    assert (first_found h (addchain_candidates h) = None) as ->; [|done].
    apply first_found_None, Forall_forall. intros cmd Hin.
    by destruct (Hcand cmd Hin) as [-> | ->].
Qed.

Lemma addchain_executable_override_witness :
  resolves Sample.overridden "addchain" "C:/go/bin/addchain.exe" ∧
  addchain_executable Sample.overridden =
    inl (FileNotFoundError addchain_not_found).
Proof.
  split; [by split; vm_compute|].
  apply (addchain_executable_override Sample.overridden "vendor/addchain").
  - reflexivity.
  - apply which_None_unresolved. by vm_compute.
  - apply which_None_unresolved. by vm_compute.
Defined.

(** X8: a path these two return is never the empty string, and it is what
    [shutil.which] gave for one of the names tried. *)
Theorem tool_paths_nonempty (h : host) :
  (∀ p, addchain_executable h = inr p →
     p ≠ "" ∧ ∃ cmd, cmd ∈ addchain_candidates h ∧ which h cmd = Some p) ∧
  (∀ command, find_size_tool h = Some command →
     ∃ p, command = [p] ∧ p ≠ "" ∧
          (which h "size" = Some p ∨ which h "llvm-size" = Some p)).
Proof.
  split.
  - intros p. unfold addchain_executable.
    destruct (first_found h (addchain_candidates h)) as [found|] eqn:E; [|done].
    intros [= <-]. by apply first_found_elem.
  - intros command. unfold find_size_tool.
    destruct (first_found h ["size"; "llvm-size"]) as [found|] eqn:E; [|done].
    intros [= <-]. apply first_found_elem in E as (Hne & cmd & Hin & Hw).
    exists found. split_and!; [done..|].
    apply elem_of_cons in Hin as [-> | Hin]; [by left|].
    apply list_elem_of_singleton in Hin as ->. by right.
Qed.

(** ** File deletion *)

Section FileDeletionMore.

Context {FS : Type}.
Variable unlink : PurePath → M FS unit.
Variable rmtree_walk : PurePath → FS → list exception * FS.

Local Abbreviation delete_file := (delete_file unlink rmtree_walk).
Local Abbreviation delete_files := (delete_files unlink rmtree_walk).

Lemma delete_file_raises_unlink (path : string) (fs fs' : FS) (e : exception) :
  delete_file path fs = (inl e, fs') →
  unlink (Path path) fs = (inl e, fs') ∧ ¬ swallowed e.
Proof.
  rewrite delete_file_unfold. unfold swallowed.
  destruct (unlink (Path path) fs) as [[[msg|msg|msg|msg|msg]|u] fs1];
    intros [= <- <-]; (split; [done|]); by intros [[? [=]]|[? [=]]].
Qed.

(** X9: deleting one list of paths and then another is deleting the two
    lists joined: when the first part raises, the second is not begun; and
    [delete_files] of a single path is [delete_file] of it. *)
Theorem delete_files_app (before after : list string) (path : string) (fs : FS) :
  delete_files (before ++ after) fs =
    bind (delete_files before) (λ _, delete_files after) fs ∧
  delete_files [path] fs = delete_file path fs.
Proof.
  split.
  - revert fs. induction before as [|p rest IH]; intros fs; [done|].
    simpl app. rewrite delete_files_cons. unfold bind at 1.
    rewrite delete_files_cons.
    destruct (delete_file p fs) as [[e|u] fs1]; [done|].
    rewrite IH. done.
  - rewrite delete_files_cons.
    by destruct (delete_file path fs) as [[e|[]] fs1].
Qed.

(** X10: an error [delete_files] raises is one [unlink] raised for one of the
    paths given, with the file system as [unlink] left it; it is never
    [FileNotFoundError] and never [IsADirectoryError]. *)
Theorem delete_files_error_from_unlink
    (paths : list string) (fs fs' : FS) (e : exception) :
  delete_files paths fs = (inl e, fs') →
  ¬ swallowed e ∧
  ∃ path fs1, path ∈ paths ∧ unlink (Path path) fs1 = (inl e, fs').
Proof.
  intros (pre & path & post & fs1 & -> & _ & Hd)%delete_files_raises.
  apply delete_file_raises_unlink in Hd as [Hu Hs].
  split; [done|]. exists path, fs1. split; [|done].
  apply elem_of_app. right. apply elem_of_cons. by left.
Qed.

(** X11: paths that are not there are passed over: when [unlink] reports
    each path of the list as not found and leaves the file system alone,
    [delete_files] returns without an error and without a change. *)
Theorem delete_files_absent (paths : list string) (fs : FS) :
  Forall (λ path, ∃ msg, unlink (Path path) fs = (inl (FileNotFoundError msg), fs))
    paths →
  delete_files paths fs = (inr (), fs).
Proof.
  induction 1 as [|path rest [msg Hu] _ IH]; [done|].
  by rewrite delete_files_cons, delete_file_unfold, Hu.
Qed.

End FileDeletionMore.

Lemma delete_files_error_from_unlink_witness :
  ¬ swallowed (PermissionError "vendor.lock") ∧
  ∃ path fs1,
    path ∈ ["gen.c"; "vendor.lock"; "build"] ∧
    Sample.unlink (Path path) fs1 =
      (inl (PermissionError "vendor.lock"),
       [("build", Sample.Dir); ("build/a.o", Sample.File); ("build/b.o", Sample.File);
        ("out", Sample.Dir); ("out/keep.bin", Sample.Locked);
        ("out/tmp.bin", Sample.File); ("vendor.lock", Sample.Locked)]).
Proof.
  apply (delete_files_error_from_unlink Sample.unlink Sample.rmtree_walk
           ["gen.c"; "vendor.lock"; "build"] Sample.disk).
  by vm_compute.
Defined.

Lemma delete_files_absent_witness :
  delete_files Sample.unlink Sample.rmtree_walk ["missing"; "gone.o"] Sample.disk =
    (inr (), Sample.disk).
Proof.
  apply (delete_files_absent Sample.unlink Sample.rmtree_walk).
  repeat constructor; eexists; by vm_compute.
Defined.
